(** * Time-dilation formulas of [notebooks/05_symbolic_derivations.ipynb]

    The notebook builds three closed-form expressions with a computer-algebra
    library over symbols declared [real=True, positive=True]:

    - [gamma = 1 / sqrt(1 - (v**2 / c**2))] and [t = gamma * t0];
    - [t_gravity = t0 * sqrt(1 - (2 * G * M) / (r * c**2))];
    - [t_decay = gamma * tau];

    together with [r_s = 2 * G * M / c**2] and two one-sided limits.

    The expressions are exact (symbolic), so they are embedded over the
    real numbers of the Standard Library.  Each symbol becomes an argument
    of the function that embeds the expression. *)

From Stdlib Require Import Reals.Reals Reals.RIneq Reals.R_sqrt.
From Stdlib Require Import ZArith Lra Lia List.
Import ListNotations.

Open Scope R_scope.

(** ** The expressions of the notebook, on their real domain *)

Module Notebook.

(** [gamma = 1 / sp.sqrt(1 - (v**2 / c**2))] *)
Definition gamma (v c : R) : R := 1 / sqrt (1 - (v ^ 2 / c ^ 2)).

(** [t = gamma * t0] *)
Definition t (v c t0 : R) : R := gamma v c * t0.

(** [t_gravity = t0 * sp.sqrt(1 - (2 * G * M) / (r * c**2))] *)
Definition t_gravity (t0 G M r c : R) : R :=
  t0 * sqrt (1 - (2 * G * M) / (r * c ^ 2)).

(** [t_decay = gamma * tau] *)
Definition t_decay (v c tau : R) : R := gamma v c * tau.

(** [r_s = 2 * G * M / c**2] *)
Definition r_s (G M c : R) : R := 2 * G * M / c ^ 2.

End Notebook.

Import Notebook.

(** ** The formulas as functions of the normalised inputs

    The datasets are indexed by the velocity fraction [v / c] and by the
    radius ratio [r / r_s].  The three evaluators are the notebook's
    expressions read at [v = v_fraction * c] and [r = radius_ratio * r_s];
    the dilation factor is [t_gravity] per unit of proper time. *)

Definition lorentz_factor (c v_fraction : R) : R :=
  gamma (v_fraction * c) c.

Definition gravitational_dilation (G M c radius_ratio : R) : R :=
  t_gravity 1 G M (radius_ratio * r_s G M c) c.

Definition decay_lifetime (c proper_lifetime v_fraction : R) : R :=
  t_decay (v_fraction * c) c proper_lifetime.

Definition dilated_time (c proper_time v_fraction : R) : R :=
  t (v_fraction * c) c proper_time.

(** The closed forms as the specification words them, for comparison with
    the expressions above. *)

Definition lorentz_factor_spec (v_fraction : R) : R :=
  1 / sqrt (1 - v_fraction ^ 2).

Definition gravitational_dilation_spec (radius_ratio : R) : R :=
  sqrt (1 - 1 / radius_ratio).

(** ** Values of the expressions outside the real domain

    The computer-algebra library works in the extended complex numbers: the
    square root of a negative real is a positive multiple of [i], and the
    reciprocal of zero is complex infinity, so an expression has a value at
    every input and no operation raises.  The notebook's recorded output
    [-oo*I] for the limit of [gamma] is such a value. *)

Module Sym.

Inductive value : Type :=
  | Finite (re im : R)
  | ComplexInfinity.

(** Principal square root of a real number. *)
Definition sqrt_real (x : R) : value :=
  if Rle_dec 0 x then Finite (sqrt x) 0 else Finite 0 (sqrt (- x)).

(** [1 / z]; [1 / 0] is complex infinity and [1 / zoo] is [0]. *)
Definition inv (z : value) : value :=
  match z with
  | Finite a b =>
      match Req_dec_T a 0, Req_dec_T b 0 with
      | left _, left _ => ComplexInfinity
      | _, _ => Finite (a / (a ^ 2 + b ^ 2)) (- b / (a ^ 2 + b ^ 2))
      end
  | ComplexInfinity => Finite 0 0
  end.

(** Product with a real symbol; the symbols are positive, and a positive
    multiple of complex infinity is complex infinity. *)
Definition scale (k : R) (z : value) : value :=
  match z with
  | Finite a b => Finite (k * a) (k * b)
  | ComplexInfinity => ComplexInfinity
  end.

(** [gamma], [t_gravity] and [t_decay] with the library's arithmetic. *)
Definition gamma (v c : R) : value :=
  inv (sqrt_real (1 - (v ^ 2 / c ^ 2))).

Definition t_gravity (t0 G M r c : R) : value :=
  scale t0 (sqrt_real (1 - (2 * G * M) / (r * c ^ 2))).

Definition t_decay (v c tau : R) : value :=
  scale tau (gamma v c).

(** [sp.limit(e, x, a)] has the default direction ["+"]: it is the limit
    from the right, as the recorded output [v -> c^+] shows.  The two
    limit values that occur: [-oo*I], and a finite real. *)
Definition right_limit_neg_imag_infinity (f : R -> value) (a : R) : Prop :=
  forall B : R, exists delta : R, 0 < delta /\
    forall x, a < x < a + delta -> exists y, f x = Finite 0 y /\ y < B.

Definition right_limit_real (f : R -> value) (a l : R) : Prop :=
  forall eps : R, 0 < eps -> exists delta : R, 0 < delta /\
    forall x, a < x < a + delta ->
      exists y, f x = Finite y 0 /\ Rabs (y - l) < eps.

End Sym.

(** ** Outcomes of the pipeline's operations *)

Inductive error : Type :=
  | InvalidRangeError
  | DomainError
  | IOError.

Inductive outcome (A : Type) : Type :=
  | Returns (a : A)
  | Raises (e : error).

Arguments Returns {A} a.
Arguments Raises {A} e.

(** Evaluating a formula of the notebook at an input: the expression is
    built from arithmetic of the computer-algebra library only, with no
    guard and no [raise], so the outcome is always a value. *)
Definition eval_lorentz_factor (c v_fraction : R) : outcome Sym.value :=
  Returns (Sym.gamma (v_fraction * c) c).

Definition eval_gravitational_dilation
    (G M c radius_ratio : R) : outcome Sym.value :=
  Returns (Sym.t_gravity 1 G M (radius_ratio * r_s G M c) c).

Definition eval_decay_lifetime
    (c proper_lifetime v_fraction : R) : outcome Sym.value :=
  Returns (Sym.t_decay (v_fraction * c) c proper_lifetime).

(** ** Parameter sweep *)

(** Modelled from the spec: the gap between neighbouring values of the
    Parameter Sweep Generator, which is not among the sources: [count] evenly
    spaced values of [[start, stop)] are [(stop - start) / count] apart. *)
Definition sweep_step (start stop : R) (count : Z) : R :=
  (stop - start) / IZR count.

(** Modelled from the spec: the [i]-th value of the Parameter Sweep
    Generator, which is not among the sources; the first value is [start]. *)
Definition sweep_point (start stop : R) (count : Z) (i : nat) : R :=
  start + INR i * sweep_step start stop count.

(** Modelled from the spec: the Parameter Sweep Generator.  No sweep code is
    among the sources (the notebook is symbolic only); the generator is
    taken from section 4.1: [count] evenly spaced values of [[start, stop)]
    in order, with [InvalidRangeError] when [count < 1] or
    [start >= stop]. *)
Definition sweep (start stop : R) (count : Z) : outcome (list R) :=
  if (count <? 1)%Z then Raises InvalidRangeError
  else if Rle_dec stop start then Raises InvalidRangeError
  else Returns (map (sweep_point start stop count) (seq 0 (Z.to_nat count))).

(** ** Limits of real functions used in the statements *)

Definition diverges_at_left (f : R -> R) (a : R) : Prop :=
  forall B : R, exists delta : R, 0 < delta /\
    forall x, a - delta < x < a -> B < f x.

Definition tends_at_right (f : R -> R) (a l : R) : Prop :=
  forall eps : R, 0 < eps -> exists delta : R, 0 < delta /\
    forall x, a < x < a + delta -> Rabs (f x - l) < eps.

Definition tends_at_infinity (f : R -> R) (l : R) : Prop :=
  forall eps : R, 0 < eps -> exists N : R,
    forall x, N < x -> Rabs (f x - l) < eps.

(** ** Auxiliary facts on square roots and reciprocals *)

Lemma inv_sqrt_increasing (x y : R) :
  0 < y -> y < x -> 1 / sqrt x < 1 / sqrt y.
Proof.
  intros Hy Hxy.
  unfold Rdiv. rewrite !Rmult_1_l.
  apply Rinv_lt_contravar.
  - apply Rmult_lt_0_compat; apply sqrt_lt_R0; lra.
  - apply sqrt_lt_1; lra.
Qed.

Lemma inv_sqrt_ge_1 (x : R) : 0 < x -> x <= 1 -> 1 <= 1 / sqrt x.
Proof.
  intros Hx Hx1.
  assert (Hs : 0 < sqrt x) by (apply sqrt_lt_R0; lra).
  assert (Hs1 : sqrt x <= 1).
  { rewrite <- sqrt_1. apply sqrt_le_1; lra. }
  unfold Rdiv. rewrite Rmult_1_l.
  rewrite <- Rinv_1 at 1.
  apply Rinv_le_contravar; lra.
Qed.

Lemma sqrt_below (x e : R) : 0 <= x -> 0 < e -> x < e ^ 2 -> sqrt x < e.
Proof.
  intros Hx He Hlt.
  replace e with (sqrt (e ^ 2)).
  - apply sqrt_lt_1; nra.
  - replace (e ^ 2) with (e * e) by ring. apply sqrt_square. lra.
Qed.

Lemma inv_sqrt_above (x B : R) :
  0 < B -> 0 < x -> x < / B ^ 2 -> B < 1 / sqrt x.
Proof.
  intros HB Hx Hlt.
  assert (Hs : 0 < sqrt x) by (apply sqrt_lt_R0; lra).
  assert (HiB : 0 < / B) by (apply Rinv_0_lt_compat; lra).
  assert (Hlt' : sqrt x < / B).
  { apply sqrt_below; try lra.
    replace ((/ B) ^ 2) with (/ B ^ 2); [assumption|].
    field. lra. }
  unfold Rdiv. rewrite Rmult_1_l.
  rewrite <- (Rinv_inv B).
  apply Rinv_lt_contravar; [|assumption].
  apply Rmult_lt_0_compat; lra.
Qed.

Lemma sqrt_above_self (x : R) : 0 <= x <= 1 -> x <= sqrt x.
Proof.
  intros [H0 H1].
  assert (Hs : 0 <= sqrt x) by apply sqrt_pos.
  assert (Hsq : sqrt x * sqrt x = x) by (apply sqrt_sqrt; lra).
  assert (Hs1 : sqrt x <= 1).
  { rewrite <- sqrt_1. apply sqrt_le_1; lra. }
  nra.
Qed.

(** ** Normalisation of the notebook's expressions *)

Section Normalisation.

Variable c : R.
Hypothesis c_pos : 0 < c.

Lemma fraction_squared (vf : R) : (vf * c) ^ 2 / c ^ 2 = vf ^ 2.
Proof. field. lra. Qed.

Lemma lorentz_factor_closed_form (vf : R) :
  lorentz_factor c vf = lorentz_factor_spec vf.
Proof.
  unfold lorentz_factor, lorentz_factor_spec, gamma.
  now rewrite fraction_squared.
Qed.

Lemma schwarzschild_ratio (G M rr : R) :
  0 < G -> 0 < M -> rr <> 0 ->
  (2 * G * M) / ((rr * r_s G M c) * c ^ 2) = 1 / rr.
Proof.
  intros HG HM Hrr. unfold r_s. field.
  repeat split; lra.
Qed.

Lemma t_gravity_closed_form (t0 G M rr : R) :
  0 < G -> 0 < M -> rr <> 0 ->
  t_gravity t0 G M (rr * r_s G M c) c = t0 * gravitational_dilation_spec rr.
Proof.
  intros HG HM Hrr.
  unfold t_gravity, gravitational_dilation_spec.
  now rewrite schwarzschild_ratio.
Qed.

Lemma gravitational_dilation_closed_form (G M rr : R) :
  0 < G -> 0 < M -> rr <> 0 ->
  gravitational_dilation G M c rr = gravitational_dilation_spec rr.
Proof.
  intros HG HM Hrr. unfold gravitational_dilation.
  rewrite t_gravity_closed_form by assumption. ring.
Qed.

End Normalisation.

(** ** Lorentz factor *)

Section Lorentz.

Variable c : R.
Hypothesis c_pos : 0 < c.

Lemma lorentz_radicand_pos (vf : R) : 0 <= vf < 1 -> 0 < 1 - vf ^ 2 <= 1.
Proof. intros [H0 H1]. nra. Qed.

Lemma lorentz_factor_at_rest : lorentz_factor c 0 = 1.
Proof.
  rewrite lorentz_factor_closed_form by assumption.
  unfold lorentz_factor_spec.
  replace (1 - 0 ^ 2) with 1 by ring.
  rewrite sqrt_1. field.
Qed.

Lemma lorentz_factor_ge_1 (vf : R) : 0 <= vf < 1 -> 1 <= lorentz_factor c vf.
Proof.
  intros Hvf.
  rewrite lorentz_factor_closed_form by assumption.
  apply inv_sqrt_ge_1; apply lorentz_radicand_pos; assumption.
Qed.

Lemma lorentz_factor_increasing (a b : R) :
  0 <= a -> a < b -> b < 1 -> lorentz_factor c a < lorentz_factor c b.
Proof.
  intros Ha Hab Hb.
  rewrite !lorentz_factor_closed_form by assumption.
  apply inv_sqrt_increasing; nra.
Qed.

Lemma lorentz_factor_diverges :
  diverges_at_left (lorentz_factor c) 1.
Proof.
  intros B.
  set (B' := Rmax B 1).
  assert (HB' : 1 <= B') by apply Rmax_r.
  assert (HBB' : B <= B') by apply Rmax_l.
  assert (Hsq : 1 <= B' ^ 2) by nra.
  assert (Hinv : 0 < / B' ^ 2 <= 1).
  { split; [apply Rinv_0_lt_compat; lra|].
    rewrite <- Rinv_1. apply Rinv_le_contravar; lra. }
  exists (/ B' ^ 2 / 2). split; [lra|].
  intros x [Hlo Hhi].
  rewrite lorentz_factor_closed_form by assumption.
  apply Rle_lt_trans with B'; [assumption|].
  apply inv_sqrt_above; [lra | nra | nra].
Qed.

Lemma lorentz_factor_unbounded (B : R) :
  exists vf, 0 <= vf < 1 /\ B < lorentz_factor c vf.
Proof.
  destruct (lorentz_factor_diverges B) as (delta & Hdelta & Hnear).
  exists (1 - Rmin delta 1 / 2).
  pose proof (Rmin_l delta 1) as Hl.
  pose proof (Rmin_r delta 1) as Hr.
  assert (Hm : 0 < Rmin delta 1) by (apply Rmin_glb_lt; lra).
  split; [lra|].
  apply Hnear. lra.
Qed.

End Lorentz.

(** C1: for every velocity fraction in [[0,1)] the Lorentz factor is
    [1 / sqrt(1 - v^2)], it is at least 1, it is strictly increasing in the
    velocity fraction, and it is 1 at rest. *)
Theorem lorentz_factor_bounds_monotone (c : R) (c_pos : 0 < c) :
  (forall vf, 0 <= vf < 1 ->
     lorentz_factor c vf = 1 / sqrt (1 - vf ^ 2) /\
     1 <= lorentz_factor c vf) /\
  (forall a b, 0 <= a -> a < b -> b < 1 ->
     lorentz_factor c a < lorentz_factor c b) /\
  lorentz_factor c 0 = 1.
Proof.
  split; [|split].
  - intros vf Hvf. split.
    + now apply lorentz_factor_closed_form.
    + now apply lorentz_factor_ge_1.
  - intros a b. now apply lorentz_factor_increasing.
  - now apply lorentz_factor_at_rest.
Qed.

Lemma lorentz_factor_bounds_monotone_witness :
  0 < 2 /\
  ((forall vf, 0 <= vf < 1 ->
     lorentz_factor 2 vf = 1 / sqrt (1 - vf ^ 2) /\
     1 <= lorentz_factor 2 vf) /\
   (forall a b, 0 <= a -> a < b -> b < 1 ->
     lorentz_factor 2 a < lorentz_factor 2 b) /\
   lorentz_factor 2 0 = 1).
Proof.
  split; [lra | apply (lorentz_factor_bounds_monotone 2); lra].
Defined.

(** ** Gravitational dilation *)

Section Gravity.

Variables G M c : R.
Hypothesis G_pos : 0 < G.
Hypothesis M_pos : 0 < M.
Hypothesis c_pos : 0 < c.

Lemma gravity_radicand (rr : R) : 1 < rr -> 0 < 1 - 1 / rr < 1.
Proof.
  intros Hrr.
  assert (Hi : 0 < / rr) by (apply Rinv_0_lt_compat; lra).
  assert (Hi1 : / rr < 1).
  { rewrite <- Rinv_1. apply Rinv_lt_contravar; lra. }
  unfold Rdiv. rewrite Rmult_1_l. lra.
Qed.

Lemma gravity_radicand_increasing (a b : R) :
  1 < a -> a < b -> 1 - 1 / a < 1 - 1 / b.
Proof.
  intros Ha Hab.
  assert (Hi : / b < / a).
  { apply Rinv_lt_contravar; [|assumption].
    apply Rmult_lt_0_compat; lra. }
  unfold Rdiv. rewrite !Rmult_1_l. lra.
Qed.

Lemma gravitational_dilation_pos (rr : R) :
  1 < rr -> 0 < gravitational_dilation G M c rr.
Proof.
  intros Hrr.
  rewrite gravitational_dilation_closed_form by (assumption || lra).
  apply sqrt_lt_R0. now apply gravity_radicand.
Qed.

Lemma gravitational_dilation_lt_1 (rr : R) :
  1 < rr -> gravitational_dilation G M c rr < 1.
Proof.
  intros Hrr.
  rewrite gravitational_dilation_closed_form by (assumption || lra).
  unfold gravitational_dilation_spec.
  destruct (gravity_radicand rr Hrr) as [H0 H1].
  apply Rlt_le_trans with (sqrt 1); [|rewrite sqrt_1; lra].
  apply sqrt_lt_1; lra.
Qed.

Lemma gravitational_dilation_increasing (a b : R) :
  1 < a -> a < b ->
  gravitational_dilation G M c a < gravitational_dilation G M c b.
Proof.
  intros Ha Hab.
  rewrite !gravitational_dilation_closed_form by (assumption || lra).
  unfold gravitational_dilation_spec.
  destruct (gravity_radicand a Ha) as [H0 _].
  assert (Hb : 1 < b) by lra.
  destruct (gravity_radicand b Hb) as [H0' _].
  apply sqrt_lt_1; try lra.
  now apply gravity_radicand_increasing.
Qed.

Lemma gravitational_dilation_far :
  tends_at_infinity (gravitational_dilation G M c) 1.
Proof.
  intros eps Heps.
  exists (Rmax 1 (/ eps)).
  intros x Hx.
  assert (Hx1 : 1 < x) by (eapply Rle_lt_trans; [apply Rmax_l | exact Hx]).
  assert (Hxe : / eps < x) by (eapply Rle_lt_trans; [apply Rmax_r | exact Hx]).
  pose proof (gravitational_dilation_lt_1 x Hx1) as Hlt.
  assert (Hx0 : x <> 0) by lra.
  rewrite (gravitational_dilation_closed_form c c_pos G M x G_pos M_pos Hx0)
    in Hlt |- *.
  unfold gravitational_dilation_spec in *.
  destruct (gravity_radicand x Hx1) as [H0 H1].
  assert (Hge : 1 - 1 / x <= sqrt (1 - 1 / x)) by (apply sqrt_above_self; lra).
  assert (Hix : 1 / x < eps).
  { unfold Rdiv. rewrite Rmult_1_l, <- (Rinv_inv eps).
    apply Rinv_lt_contravar; [|assumption].
    apply Rmult_lt_0_compat; [apply Rinv_0_lt_compat|]; lra. }
  rewrite Rabs_left1 by lra. lra.
Qed.

Lemma gravitational_dilation_near_horizon :
  tends_at_right (gravitational_dilation G M c) 1 0.
Proof.
  intros eps Heps.
  exists (eps ^ 2). split; [nra|].
  intros x [Hx1 Hx2].
  rewrite gravitational_dilation_closed_form by (assumption || lra).
  unfold gravitational_dilation_spec.
  destruct (gravity_radicand x Hx1) as [H0 H1].
  rewrite Rminus_0_r.
  rewrite Rabs_pos_eq by apply sqrt_pos.
  apply sqrt_below; try lra.
  assert (Hi : 0 < / x) by (apply Rinv_0_lt_compat; lra).
  assert (Hxi : x * / x = 1) by (apply Rinv_r; lra).
  unfold Rdiv. rewrite Rmult_1_l.
  nra.
Qed.

Lemma r_s_pos : 0 < r_s G M c.
Proof.
  unfold r_s. apply Rdiv_lt_0_compat; [|nra].
  apply Rmult_lt_0_compat; lra.
Qed.

(** [limit_gravity = sp.limit(t_gravity, r, r_s)], recorded as [0]. *)
Lemma limit_gravity_is_zero (t0 : R) :
  0 < t0 -> tends_at_right (fun r => t_gravity t0 G M r c) (r_s G M c) 0.
Proof.
  intros Ht0 eps Heps.
  pose proof r_s_pos as Hrs.
  assert (Het : 0 < eps / t0) by now apply Rdiv_lt_0_compat.
  destruct (gravitational_dilation_near_horizon (eps / t0) Het)
    as (d & Hd & Hnear).
  exists (d * r_s G M c). split; [now apply Rmult_lt_0_compat|].
  intros r [Hlo Hhi].
  set (rr := r / r_s G M c).
  assert (Hr : r = rr * r_s G M c) by (unfold rr; field; lra).
  assert (Hrr : 1 < rr < 1 + d).
  { split; apply Rmult_lt_reg_r with (r_s G M c); try assumption;
      rewrite <- Hr; lra. }
  specialize (Hnear rr Hrr).
  rewrite Hr, t_gravity_closed_form by (assumption || lra).
  rewrite gravitational_dilation_closed_form in Hnear by (assumption || lra).
  rewrite Rminus_0_r in *.
  rewrite Rabs_mult, (Rabs_pos_eq t0) by lra.
  apply Rlt_le_trans with (t0 * (eps / t0)).
  - now apply Rmult_lt_compat_l.
  - right. field. lra.
Qed.

End Gravity.

(** C2: for every radius ratio above 1 the gravitational dilation factor
    [sqrt(1 - 1/radius_ratio)] lies in [(0,1]], is strictly increasing, tends
    to 1 as the radius ratio grows without bound and tends to 0 as the
    radius ratio approaches 1 from above. *)
Theorem gravitational_dilation_range_monotone_limits
    (G M c : R) (G_pos : 0 < G) (M_pos : 0 < M) (c_pos : 0 < c) :
  (forall rr, 1 < rr ->
     gravitational_dilation G M c rr = sqrt (1 - 1 / rr) /\
     0 < gravitational_dilation G M c rr <= 1) /\
  (forall a b, 1 < a -> a < b ->
     gravitational_dilation G M c a < gravitational_dilation G M c b) /\
  tends_at_infinity (gravitational_dilation G M c) 1 /\
  tends_at_right (gravitational_dilation G M c) 1 0.
Proof.
  split; [|split; [|split]].
  - intros rr Hrr. split; [|split].
    + apply gravitational_dilation_closed_form; lra.
    + now apply gravitational_dilation_pos.
    + left. now apply gravitational_dilation_lt_1.
  - intros a b. now apply gravitational_dilation_increasing.
  - now apply gravitational_dilation_far.
  - now apply gravitational_dilation_near_horizon.
Qed.

Lemma gravitational_dilation_range_monotone_limits_witness :
  0 < 1 /\ 0 < 2 /\ 0 < 3 /\
  ((forall rr, 1 < rr ->
     gravitational_dilation 1 2 3 rr = sqrt (1 - 1 / rr) /\
     0 < gravitational_dilation 1 2 3 rr <= 1) /\
   (forall a b, 1 < a -> a < b ->
     gravitational_dilation 1 2 3 a < gravitational_dilation 1 2 3 b) /\
   tends_at_infinity (gravitational_dilation 1 2 3) 1 /\
   tends_at_right (gravitational_dilation 1 2 3) 1 0).
Proof.
  repeat (split; [lra|]).
  apply (gravitational_dilation_range_monotone_limits 1 2 3); lra.
Defined.

(** C9: at every finite radius ratio above 1 the gravitational dilation
    factor is strictly below 1; the endpoint 1 is only the limit at
    infinity. *)
Theorem gravitational_dilation_never_one
    (G M c rr : R) (G_pos : 0 < G) (M_pos : 0 < M) (c_pos : 0 < c)
    (Hrr : 1 < rr) :
  gravitational_dilation G M c rr = sqrt (1 - 1 / rr) /\
  gravitational_dilation G M c rr < 1 /\
  gravitational_dilation G M c rr <> 1.
Proof.
  split; [|split].
  - apply gravitational_dilation_closed_form; lra.
  - now apply gravitational_dilation_lt_1.
  - apply Rlt_not_eq. now apply gravitational_dilation_lt_1.
Qed.

Lemma gravitational_dilation_never_one_witness :
  0 < 1 /\ 0 < 2 /\ 0 < 3 /\ 1 < 10 /\
  (gravitational_dilation 1 2 3 10 = sqrt (1 - 1 / 10) /\
   gravitational_dilation 1 2 3 10 < 1 /\
   gravitational_dilation 1 2 3 10 <> 1).
Proof.
  repeat (split; [lra|]).
  apply (gravitational_dilation_never_one 1 2 3 10); lra.
Defined.

(** C6: with [r = radius_ratio * r_s] and [r_s = 2GM/c^2], the notebook's
    Schwarzschild expression [sqrt(1 - 2GM/(r c^2))] is the normalised
    [sqrt(1 - 1/radius_ratio)], for every radius ratio above 1 and all
    positive [G], [M], [c] (and any proper time [t0] in front). *)
Theorem schwarzschild_expression_is_normalised
    (t0 G M c rr : R) (G_pos : 0 < G) (M_pos : 0 < M) (c_pos : 0 < c)
    (Hrr : 1 < rr) :
  sqrt (1 - (2 * G * M) / ((rr * r_s G M c) * c ^ 2))
    = gravitational_dilation_spec rr /\
  t_gravity t0 G M (rr * r_s G M c) c = t0 * gravitational_dilation_spec rr /\
  gravitational_dilation G M c rr = gravitational_dilation_spec rr.
Proof.
  split; [|split].
  - unfold gravitational_dilation_spec.
    rewrite schwarzschild_ratio by lra. reflexivity.
  - apply t_gravity_closed_form; lra.
  - apply gravitational_dilation_closed_form; lra.
Qed.

Lemma schwarzschild_expression_is_normalised_witness :
  0 < 1 /\ 0 < 2 /\ 0 < 3 /\ 1 < 10 /\
  (sqrt (1 - (2 * 1 * 2) / ((10 * r_s 1 2 3) * 3 ^ 2))
     = gravitational_dilation_spec 10 /\
   t_gravity 5 1 2 (10 * r_s 1 2 3) 3 = 5 * gravitational_dilation_spec 10 /\
   gravitational_dilation 1 2 3 10 = gravitational_dilation_spec 10).
Proof.
  repeat (split; [lra|]).
  apply (schwarzschild_expression_is_normalised 5 1 2 3 10); lra.
Defined.

(** ** Decay lifetime and dilated time *)

Lemma inv_sqrt_under (x U : R) :
  0 < U -> / U ^ 2 < x -> 1 / sqrt x < U.
Proof.
  intros HU Hlt.
  assert (HiU : 0 < / U) by (apply Rinv_0_lt_compat; lra).
  assert (Hsq : / U ^ 2 = / U * / U) by (field; lra).
  assert (Hroot : sqrt (/ U ^ 2) = / U).
  { rewrite Hsq. apply sqrt_square. lra. }
  assert (Hstep : 1 / sqrt x < 1 / sqrt (/ U ^ 2)).
  { apply inv_sqrt_increasing; [|assumption].
    rewrite Hsq. apply Rmult_lt_0_compat; assumption. }
  rewrite Hroot in Hstep.
  replace (1 / / U) with U in Hstep by (field; lra).
  exact Hstep.
Qed.

(** C5: the Lorentz factor at 99 percent of light speed, exactly
    [1 / sqrt(1 - 0.99^2)], lies between 7.0888 and 7.0889. *)
Theorem lorentz_factor_at_099 (c : R) (c_pos : 0 < c) :
  lorentz_factor c (99 / 100) = 1 / sqrt (1 - (99 / 100) ^ 2) /\
  70888 / 10000 < lorentz_factor c (99 / 100) < 70889 / 10000.
Proof.
  split; [now apply lorentz_factor_closed_form|].
  rewrite lorentz_factor_closed_form by assumption.
  unfold lorentz_factor_spec.
  replace (1 - (99 / 100) ^ 2) with (199 / 10000) by field.
  split.
  - apply inv_sqrt_above; [lra | lra |].
    replace (/ (70888 / 10000) ^ 2) with (100000000 / 5025108544) by field.
    lra.
  - apply inv_sqrt_under; [lra |].
    replace (/ (70889 / 10000) ^ 2) with (100000000 / 5025250321) by field.
    lra.
Qed.

Lemma lorentz_factor_at_099_witness :
  0 < 1 /\
  (lorentz_factor 1 (99 / 100) = 1 / sqrt (1 - (99 / 100) ^ 2) /\
   70888 / 10000 < lorentz_factor 1 (99 / 100) < 70889 / 10000).
Proof.
  split; [lra | apply (lorentz_factor_at_099 1); lra].
Defined.

(** C3: the decay lifetime is the proper lifetime times the Lorentz factor;
    at rest it is the proper lifetime itself, and for a velocity fraction in
    [[0,1)] the observed lifetime is never below the proper lifetime. *)
Theorem decay_lifetime_scales_proper_lifetime
    (c tau vf : R) (c_pos : 0 < c) (tau_valid : 0 <= tau)
    (vf_valid : 0 <= vf < 1) :
  decay_lifetime c tau vf = tau * lorentz_factor c vf /\
  decay_lifetime c tau vf = tau * (1 / sqrt (1 - vf ^ 2)) /\
  decay_lifetime c tau 0 = tau /\
  tau <= decay_lifetime c tau vf.
Proof.
  assert (Hmul : forall u, decay_lifetime c tau u = tau * lorentz_factor c u).
  { intros u. unfold decay_lifetime, t_decay, lorentz_factor. ring. }
  repeat split.
  - apply Hmul.
  - rewrite Hmul, lorentz_factor_closed_form by assumption. reflexivity.
  - rewrite Hmul, lorentz_factor_at_rest by assumption. ring.
  - rewrite Hmul.
    pose proof (lorentz_factor_ge_1 c c_pos vf vf_valid) as Hge.
    nra.
Qed.

Lemma decay_lifetime_scales_proper_lifetime_witness :
  0 < 1 /\ 0 <= 22 / 10 /\ 0 <= 3 / 5 < 1 /\
  (decay_lifetime 1 (22 / 10) (3 / 5) = 22 / 10 * lorentz_factor 1 (3 / 5) /\
   decay_lifetime 1 (22 / 10) (3 / 5)
     = 22 / 10 * (1 / sqrt (1 - (3 / 5) ^ 2)) /\
   decay_lifetime 1 (22 / 10) 0 = 22 / 10 /\
   22 / 10 <= decay_lifetime 1 (22 / 10) (3 / 5)).
Proof.
  repeat (split; [lra|]).
  apply (decay_lifetime_scales_proper_lifetime 1 (22 / 10) (3 / 5)); lra.
Defined.

(** C10: the particle-decay expression [t_decay = gamma * tau] is the
    velocity-dilation expression [t = gamma * t0] with the proper time
    renamed: as functions of the proper-time argument they agree at every
    velocity, hence at every velocity fraction. *)
Theorem decay_is_dilated_time (c x : R) :
  (forall v, t_decay v c x = t v c x) /\
  (forall vf, decay_lifetime c x vf = dilated_time c x vf) /\
  (forall vf, dilated_time c x vf = lorentz_factor c vf * x).
Proof.
  repeat split.
Qed.

(** ** The expressions in the extended complex numbers *)

Lemma sym_sqrt_real_nonneg (x : R) :
  0 <= x -> Sym.sqrt_real x = Sym.Finite (sqrt x) 0.
Proof.
  intros Hx. unfold Sym.sqrt_real.
  destruct (Rle_dec 0 x) as [_|Hn]; [reflexivity | contradiction].
Qed.

Lemma sym_sqrt_real_neg (x : R) :
  x < 0 -> Sym.sqrt_real x = Sym.Finite 0 (sqrt (- x)).
Proof.
  intros Hx. unfold Sym.sqrt_real.
  destruct (Rle_dec 0 x) as [Hp|_]; [lra | reflexivity].
Qed.

Lemma sym_inv_zero : Sym.inv (Sym.Finite 0 0) = Sym.ComplexInfinity.
Proof.
  unfold Sym.inv.
  destruct (Req_dec_T 0 0) as [_|Hn]; [reflexivity | now elim Hn].
Qed.

Lemma sym_inv_real (a : R) :
  a <> 0 -> Sym.inv (Sym.Finite a 0) = Sym.Finite (1 / a) 0.
Proof.
  intros Ha. unfold Sym.inv.
  destruct (Req_dec_T a 0) as [H0|_]; [contradiction|].
  f_equal; field; assumption.
Qed.

Lemma sym_inv_imag (b : R) :
  b <> 0 -> Sym.inv (Sym.Finite 0 b) = Sym.Finite 0 (- (1 / b)).
Proof.
  intros Hb. unfold Sym.inv.
  destruct (Req_dec_T 0 0) as [_|Hn]; [|now elim Hn].
  destruct (Req_dec_T b 0) as [H0|_]; [contradiction|].
  f_equal; field; assumption.
Qed.

Section Extended.

Variable c : R.
Hypothesis c_pos : 0 < c.

Lemma velocity_ratio_below (v : R) : 0 <= v < c -> 0 < 1 - v ^ 2 / c ^ 2.
Proof.
  intros [H0 H1].
  assert (Hc2 : 0 < c ^ 2) by nra.
  assert (Hq : v ^ 2 / c ^ 2 < 1).
  { apply Rmult_lt_reg_r with (c ^ 2); [assumption|].
    replace (v ^ 2 / c ^ 2 * c ^ 2) with (v ^ 2) by (field; lra).
    nra. }
  lra.
Qed.

Lemma velocity_ratio_above (v : R) : c < v -> 1 - v ^ 2 / c ^ 2 < 0.
Proof.
  intros Hv.
  assert (Hc2 : 0 < c ^ 2) by nra.
  assert (Hq : 1 < v ^ 2 / c ^ 2).
  { apply Rmult_lt_reg_r with (c ^ 2); [assumption|].
    replace (v ^ 2 / c ^ 2 * c ^ 2) with (v ^ 2) by (field; lra).
    nra. }
  lra.
Qed.

Lemma sym_gamma_subluminal (v : R) :
  0 <= v < c -> Sym.gamma v c = Sym.Finite (gamma v c) 0.
Proof.
  intros Hv. unfold Sym.gamma, gamma.
  pose proof (velocity_ratio_below v Hv) as Hpos.
  rewrite sym_sqrt_real_nonneg by lra.
  apply sym_inv_real.
  apply Rgt_not_eq. now apply sqrt_lt_R0.
Qed.

Lemma sym_gamma_superluminal (v : R) :
  c < v ->
  Sym.gamma v c = Sym.Finite 0 (- (1 / sqrt (v ^ 2 / c ^ 2 - 1))).
Proof.
  intros Hv. unfold Sym.gamma.
  pose proof (velocity_ratio_above v Hv) as Hneg.
  rewrite sym_sqrt_real_neg by assumption.
  replace (- (1 - v ^ 2 / c ^ 2)) with (v ^ 2 / c ^ 2 - 1) by ring.
  apply sym_inv_imag.
  apply Rgt_not_eq. apply sqrt_lt_R0. lra.
Qed.

Lemma sym_gamma_luminal : Sym.gamma c c = Sym.ComplexInfinity.
Proof.
  unfold Sym.gamma.
  replace (1 - c ^ 2 / c ^ 2) with 0 by (field; lra).
  rewrite sym_sqrt_real_nonneg by lra.
  rewrite sqrt_0. apply sym_inv_zero.
Qed.

Lemma sym_gamma_five_quarters :
  Sym.gamma (5 / 4 * c) c = Sym.Finite 0 (- (4 / 3)).
Proof.
  rewrite sym_gamma_superluminal by lra.
  replace ((5 / 4 * c) ^ 2 / c ^ 2 - 1) with (3 / 4 * (3 / 4)) by (field; lra).
  rewrite sqrt_square by lra.
  f_equal. field.
Qed.

Lemma sym_gamma_right_limit :
  Sym.right_limit_neg_imag_infinity (fun v => Sym.gamma v c) c.
Proof.
  intros B.
  set (B' := Rmax (- B) 1).
  assert (HB' : 1 <= B') by apply Rmax_r.
  assert (HBB' : - B <= B') by apply Rmax_l.
  assert (Hsq : 1 <= B' ^ 2) by nra.
  set (k := / B' ^ 2).
  assert (Hk : 0 < k <= 1).
  { unfold k. split; [apply Rinv_0_lt_compat; lra|].
    rewrite <- Rinv_1. apply Rinv_le_contravar; lra. }
  exists (c * k / 3). split; [nra|].
  intros v [Hlo Hhi].
  rewrite sym_gamma_superluminal by assumption.
  eexists. split; [reflexivity|].
  pose proof (velocity_ratio_above v Hlo) as Hneg.
  assert (Hc2 : 0 < c ^ 2) by nra.
  assert (Hv2 : v ^ 2 < c ^ 2 * (1 + k)).
  { assert (Hs : v ^ 2 < (c + c * k / 3) ^ 2) by nra.
    assert (Hs' : (c + c * k / 3) ^ 2 <= c ^ 2 * (1 + k)).
    { replace ((c + c * k / 3) ^ 2)
        with (c ^ 2 * (1 + 2 * k / 3 + k * k / 9)) by field.
      apply Rmult_le_compat_l; nra. }
    lra. }
  assert (Hq : v ^ 2 / c ^ 2 < 1 + k).
  { apply Rmult_lt_reg_r with (c ^ 2); [assumption|].
    replace (v ^ 2 / c ^ 2 * c ^ 2) with (v ^ 2) by (field; lra).
    lra. }
  assert (Hbig : B' < 1 / sqrt (v ^ 2 / c ^ 2 - 1)).
  { apply inv_sqrt_above; [lra | lra | fold k; lra]. }
  lra.
Qed.

End Extended.

(** C4: the Lorentz factor grows without bound as the velocity fraction
    approaches 1 from below, as the notebook's text states.  The cell
    [sp.limit(gamma, v, c)] however takes the limit from the right, where
    [gamma] is purely imaginary: its value is [-oo*I], the recorded output,
    and not positive infinity; at [v = 5c/4] the expression is [-4i/3]. *)
Theorem limit_lorentz_from_the_right (c : R) (c_pos : 0 < c) :
  (forall B, exists vf, 0 <= vf < 1 /\ B < lorentz_factor c vf) /\
  diverges_at_left (lorentz_factor c) 1 /\
  Sym.right_limit_neg_imag_infinity (fun v => Sym.gamma v c) c /\
  Sym.gamma (5 / 4 * c) c = Sym.Finite 0 (- (4 / 3)).
Proof.
  split; [|split; [|split]].
  - now apply lorentz_factor_unbounded.
  - now apply lorentz_factor_diverges.
  - now apply sym_gamma_right_limit.
  - now apply sym_gamma_five_quarters.
Qed.

Lemma limit_lorentz_from_the_right_witness :
  0 < 1 /\
  ((forall B, exists vf, 0 <= vf < 1 /\ B < lorentz_factor 1 vf) /\
   diverges_at_left (lorentz_factor 1) 1 /\
   Sym.right_limit_neg_imag_infinity (fun v => Sym.gamma v 1) 1 /\
   Sym.gamma (5 / 4 * 1) 1 = Sym.Finite 0 (- (4 / 3))).
Proof.
  split; [lra | apply (limit_lorentz_from_the_right 1); lra].
Defined.

(** ** Evaluation never raises *)

Section Evaluation.

Variables G M c : R.
Hypothesis G_pos : 0 < G.
Hypothesis M_pos : 0 < M.
Hypothesis c_pos : 0 < c.

Lemma fraction_in_domain (vf : R) : 0 <= vf < 1 -> 0 <= vf * c < c.
Proof. intros [H0 H1]. split; nra. Qed.

Lemma fraction_beyond (vf : R) : 1 < vf -> c < vf * c.
Proof. intros H. nra. Qed.

Lemma eval_lorentz_factor_in_domain (vf : R) :
  0 <= vf < 1 ->
  eval_lorentz_factor c vf = Returns (Sym.Finite (lorentz_factor c vf) 0).
Proof.
  intros Hvf. unfold eval_lorentz_factor, lorentz_factor.
  rewrite sym_gamma_subluminal by (assumption || now apply fraction_in_domain).
  reflexivity.
Qed.

Lemma eval_lorentz_factor_beyond (vf : R) :
  1 < vf ->
  exists y, y < 0 /\ eval_lorentz_factor c vf = Returns (Sym.Finite 0 y).
Proof.
  intros Hvf. unfold eval_lorentz_factor.
  pose proof (fraction_beyond vf Hvf) as Hv.
  rewrite sym_gamma_superluminal by assumption.
  eexists. split; [|reflexivity].
  pose proof (velocity_ratio_above c c_pos _ Hv) as Hneg.
  assert (Hs : 0 < sqrt ((vf * c) ^ 2 / c ^ 2 - 1)) by (apply sqrt_lt_R0; lra).
  assert (Hi : 0 < / sqrt ((vf * c) ^ 2 / c ^ 2 - 1))
    by now apply Rinv_0_lt_compat.
  unfold Rdiv. rewrite Rmult_1_l. lra.
Qed.

Lemma eval_lorentz_factor_at_light_speed :
  eval_lorentz_factor c 1 = Returns Sym.ComplexInfinity.
Proof.
  unfold eval_lorentz_factor. rewrite Rmult_1_l.
  now rewrite sym_gamma_luminal.
Qed.

Lemma eval_gravitational_dilation_in_domain (rr : R) :
  1 < rr ->
  eval_gravitational_dilation G M c rr
    = Returns (Sym.Finite (gravitational_dilation G M c rr) 0).
Proof.
  intros Hrr.
  unfold eval_gravitational_dilation, gravitational_dilation.
  unfold Sym.t_gravity, t_gravity.
  rewrite schwarzschild_ratio by (assumption || lra).
  destruct (gravity_radicand rr Hrr) as [H0 _].
  rewrite sym_sqrt_real_nonneg by lra.
  simpl. do 2 f_equal. ring.
Qed.

Lemma eval_gravitational_dilation_inside (rr : R) :
  0 < rr < 1 ->
  exists y, 0 < y /\
    eval_gravitational_dilation G M c rr = Returns (Sym.Finite 0 y).
Proof.
  intros [H0 H1].
  unfold eval_gravitational_dilation, Sym.t_gravity.
  rewrite schwarzschild_ratio by (assumption || lra).
  assert (Hi : 1 < / rr).
  { rewrite <- Rinv_1. apply Rinv_lt_contravar; lra. }
  assert (Hneg : 1 - 1 / rr < 0) by (unfold Rdiv; lra).
  rewrite sym_sqrt_real_neg by assumption.
  exists (sqrt (- (1 - 1 / rr))). split.
  - apply sqrt_lt_R0. lra.
  - simpl. do 2 f_equal; ring.
Qed.

Lemma eval_gravitational_dilation_at_horizon :
  eval_gravitational_dilation G M c 1 = Returns (Sym.Finite 0 0).
Proof.
  unfold eval_gravitational_dilation, Sym.t_gravity.
  rewrite schwarzschild_ratio by (assumption || lra).
  replace (1 - 1 / 1) with 0 by field.
  rewrite sym_sqrt_real_nonneg by lra.
  rewrite sqrt_0. simpl. do 2 f_equal; ring.
Qed.

Lemma eval_decay_lifetime_in_domain (tau vf : R) :
  0 <= vf < 1 ->
  eval_decay_lifetime c tau vf
    = Returns (Sym.Finite (decay_lifetime c tau vf) 0).
Proof.
  intros Hvf.
  unfold eval_decay_lifetime, decay_lifetime, Sym.t_decay, t_decay.
  rewrite sym_gamma_subluminal by (assumption || now apply fraction_in_domain).
  simpl. do 2 f_equal; ring.
Qed.

Lemma eval_decay_lifetime_beyond (tau vf : R) :
  0 < tau -> 1 < vf ->
  exists y, y < 0 /\
    eval_decay_lifetime c tau vf = Returns (Sym.Finite 0 y).
Proof.
  intros Htau Hvf.
  destruct (eval_lorentz_factor_beyond vf Hvf) as (y & Hy & Heq).
  unfold eval_lorentz_factor in Heq. injection Heq as Heq.
  unfold eval_decay_lifetime, Sym.t_decay. rewrite Heq.
  exists (tau * y). split; [nra|].
  simpl. do 2 f_equal; ring.
Qed.

Lemma eval_decay_lifetime_at_light_speed (tau : R) :
  eval_decay_lifetime c tau 1 = Returns Sym.ComplexInfinity.
Proof.
  unfold eval_decay_lifetime, Sym.t_decay. rewrite Rmult_1_l.
  now rewrite sym_gamma_luminal.
Qed.

Lemma sym_t_gravity_outside_horizon (t0 r : R) :
  r_s G M c < r ->
  Sym.t_gravity t0 G M r c = Sym.Finite (t_gravity t0 G M r c) 0.
Proof.
  intros Hr.
  pose proof (r_s_pos G M c G_pos M_pos c_pos) as Hrs.
  set (rr := r / r_s G M c).
  assert (Heq : r = rr * r_s G M c) by (unfold rr; field; lra).
  assert (Hrr : 1 < rr).
  { apply Rmult_lt_reg_r with (r_s G M c); [assumption|].
    rewrite <- Heq. lra. }
  unfold Sym.t_gravity, t_gravity. rewrite Heq.
  rewrite schwarzschild_ratio by (assumption || lra).
  destruct (gravity_radicand rr Hrr) as [H0 _].
  rewrite sym_sqrt_real_nonneg by lra.
  simpl. f_equal. ring.
Qed.

Lemma sym_limit_gravity_is_zero (t0 : R) :
  0 < t0 ->
  Sym.right_limit_real (fun r => Sym.t_gravity t0 G M r c) (r_s G M c) 0.
Proof.
  intros Ht0 eps Heps.
  destruct (limit_gravity_is_zero G M c G_pos M_pos c_pos t0 Ht0 eps Heps)
    as (d & Hd & Hnear).
  exists d. split; [assumption|].
  intros r Hr. exists (t_gravity t0 G M r c). split.
  - apply sym_t_gravity_outside_horizon. lra.
  - now apply Hnear.
Qed.

End Evaluation.

(** C8, as the notebook has it: each formula has a real value, the one of
    its closed form, at every input of its domain and raises nothing there;
    outside the domain nothing is raised either, the expression has a value
    in the extended complex numbers: a negative multiple of [i] for a
    velocity fraction above 1, complex infinity at velocity fraction 1, a
    positive multiple of [i] for a radius ratio in [(0,1)] and [0] at
    radius ratio 1. *)
Theorem formula_evaluators_total_without_domain_error
    (G M c tau : R) (G_pos : 0 < G) (M_pos : 0 < M) (c_pos : 0 < c)
    (tau_pos : 0 < tau) :
  (forall vf, 0 <= vf < 1 ->
     eval_lorentz_factor c vf
       = Returns (Sym.Finite (lorentz_factor c vf) 0)) /\
  (forall rr, 1 < rr ->
     eval_gravitational_dilation G M c rr
       = Returns (Sym.Finite (gravitational_dilation G M c rr) 0)) /\
  (forall vf, 0 <= vf < 1 ->
     eval_decay_lifetime c tau vf
       = Returns (Sym.Finite (decay_lifetime c tau vf) 0)) /\
  (forall vf, 1 < vf ->
     exists y, y < 0 /\
       eval_lorentz_factor c vf = Returns (Sym.Finite 0 y)) /\
  eval_lorentz_factor c 1 = Returns Sym.ComplexInfinity /\
  (forall rr, 0 < rr < 1 ->
     exists y, 0 < y /\
       eval_gravitational_dilation G M c rr = Returns (Sym.Finite 0 y)) /\
  eval_gravitational_dilation G M c 1 = Returns (Sym.Finite 0 0) /\
  (forall vf, 1 < vf ->
     exists y, y < 0 /\
       eval_decay_lifetime c tau vf = Returns (Sym.Finite 0 y)) /\
  eval_decay_lifetime c tau 1 = Returns Sym.ComplexInfinity /\
  (forall x e,
     eval_lorentz_factor c x <> Raises e /\
     eval_gravitational_dilation G M c x <> Raises e /\
     eval_decay_lifetime c tau x <> Raises e).
Proof.
  repeat apply conj.
  - now apply eval_lorentz_factor_in_domain.
  - now apply eval_gravitational_dilation_in_domain.
  - intros vf. now apply eval_decay_lifetime_in_domain.
  - now apply eval_lorentz_factor_beyond.
  - now apply eval_lorentz_factor_at_light_speed.
  - now apply eval_gravitational_dilation_inside.
  - now apply eval_gravitational_dilation_at_horizon.
  - intros vf. now apply eval_decay_lifetime_beyond.
  - now apply eval_decay_lifetime_at_light_speed.
  - intros x e. repeat split; discriminate.
Qed.

Lemma formula_evaluators_total_without_domain_error_witness :
  0 < 1 /\ 0 < 2 /\ 0 < 3 /\ 0 < 22 / 10 /\
  ((forall vf, 0 <= vf < 1 ->
      eval_lorentz_factor 3 vf
        = Returns (Sym.Finite (lorentz_factor 3 vf) 0)) /\
   (forall rr, 1 < rr ->
      eval_gravitational_dilation 1 2 3 rr
        = Returns (Sym.Finite (gravitational_dilation 1 2 3 rr) 0)) /\
   (forall vf, 0 <= vf < 1 ->
      eval_decay_lifetime 3 (22 / 10) vf
        = Returns (Sym.Finite (decay_lifetime 3 (22 / 10) vf) 0)) /\
   (forall vf, 1 < vf ->
      exists y, y < 0 /\
        eval_lorentz_factor 3 vf = Returns (Sym.Finite 0 y)) /\
   eval_lorentz_factor 3 1 = Returns Sym.ComplexInfinity /\
   (forall rr, 0 < rr < 1 ->
      exists y, 0 < y /\
        eval_gravitational_dilation 1 2 3 rr = Returns (Sym.Finite 0 y)) /\
   eval_gravitational_dilation 1 2 3 1 = Returns (Sym.Finite 0 0) /\
   (forall vf, 1 < vf ->
      exists y, y < 0 /\
        eval_decay_lifetime 3 (22 / 10) vf = Returns (Sym.Finite 0 y)) /\
   eval_decay_lifetime 3 (22 / 10) 1 = Returns Sym.ComplexInfinity /\
   (forall x e,
      eval_lorentz_factor 3 x <> Raises e /\
      eval_gravitational_dilation 1 2 3 x <> Raises e /\
      eval_decay_lifetime 3 (22 / 10) x <> Raises e)).
Proof.
  repeat (split; [lra|]).
  apply (formula_evaluators_total_without_domain_error 1 2 3 (22 / 10)); lra.
Defined.

(** C8 as stated fails: at velocity fraction 5/4, outside the domain, the
    evaluation returns the value [-4i/3] and raises no [DomainError]. *)
Lemma domain_error_not_raised_beyond_light_speed :
  eval_lorentz_factor 1 (5 / 4) = Returns (Sym.Finite 0 (- (4 / 3))) /\
  eval_lorentz_factor 1 (5 / 4) <> Raises DomainError.
Proof.
  split; [|discriminate].
  unfold eval_lorentz_factor.
  rewrite sym_gamma_five_quarters by lra. reflexivity.
Qed.

(** ** Parameter sweep *)

Section Sweep.

Variables start stop : R.
Variable count : Z.

Lemma sweep_rejects :
  (count < 1)%Z \/ stop <= start ->
  sweep start stop count = Raises InvalidRangeError.
Proof.
  intros H. unfold sweep.
  destruct (Z.ltb_spec count 1) as [_|Hc]; [reflexivity|].
  destruct (Rle_dec stop start) as [_|Hn]; [reflexivity|].
  destruct H as [H|H]; [lia | contradiction].
Qed.

Hypothesis count_valid : (1 <= count)%Z.
Hypothesis range_valid : start < stop.

Lemma sweep_accepts :
  sweep start stop count
    = Returns (map (sweep_point start stop count) (seq 0 (Z.to_nat count))).
Proof.
  unfold sweep.
  destruct (Z.ltb_spec count 1) as [Hc|_]; [lia|].
  destruct (Rle_dec stop start) as [Hn|_]; [lra | reflexivity].
Qed.

Lemma count_as_real : INR (Z.to_nat count) = IZR count.
Proof. rewrite INR_IZR_INZ, Z2Nat.id by lia. reflexivity. Qed.

Lemma count_real_pos : 0 < IZR count.
Proof. apply IZR_lt. lia. Qed.

Lemma sweep_step_pos : 0 < sweep_step start stop count.
Proof.
  unfold sweep_step. apply Rdiv_lt_0_compat; [lra | apply count_real_pos].
Qed.

Lemma sweep_step_total :
  IZR count * sweep_step start stop count = stop - start.
Proof.
  unfold sweep_step. field. apply Rgt_not_eq, count_real_pos.
Qed.

Lemma sweep_point_in_range (i : nat) :
  (i < Z.to_nat count)%nat ->
  start <= sweep_point start stop count i < stop.
Proof.
  intros Hi. unfold sweep_point.
  pose proof sweep_step_pos as Hs.
  pose proof sweep_step_total as Ht.
  pose proof (pos_INR i) as H0.
  assert (Hlt : INR i < IZR count).
  { rewrite <- count_as_real. now apply lt_INR. }
  split; nra.
Qed.

Lemma sweep_point_next (i : nat) :
  sweep_point start stop count (S i) - sweep_point start stop count i
    = sweep_step start stop count.
Proof. unfold sweep_point. rewrite S_INR. ring. Qed.

Lemma sweep_nth (i : nat) :
  (i < Z.to_nat count)%nat ->
  nth i (map (sweep_point start stop count) (seq 0 (Z.to_nat count))) 0
    = sweep_point start stop count i.
Proof.
  intros Hi.
  rewrite (nth_indep _ 0 (sweep_point start stop count 0%nat))
    by (rewrite length_map, length_seq; exact Hi).
  rewrite map_nth, seq_nth by exact Hi.
  reflexivity.
Qed.

End Sweep.

Example sweep_quarters :
  sweep 0 1 4 = Returns [0; 1 / 4; 1 / 2; 3 / 4].
Proof.
  rewrite sweep_accepts by (lia || lra).
  unfold sweep_point, sweep_step. simpl.
  apply f_equal.
  repeat (apply f_equal2; [field|]).
  reflexivity.
Qed.

(** C7: the sweep fails with [InvalidRangeError] when [count < 1] or
    [start >= stop]; otherwise it yields exactly [count] values, starting at
    [start], each one in [[start, stop)], in increasing order and with one
    constant gap between neighbours. *)
Theorem sweep_contract (start stop : R) (count : Z) :
  ((count < 1)%Z \/ stop <= start ->
   sweep start stop count = Raises InvalidRangeError) /\
  ((1 <= count)%Z -> start < stop ->
   exists xs,
     sweep start stop count = Returns xs /\
     Z.of_nat (length xs) = count /\
     nth 0 xs 0 = start /\
     (forall x, In x xs -> start <= x < stop) /\
     (forall i, (S i < length xs)%nat ->
        nth i xs 0 < nth (S i) xs 0 /\
        nth (S i) xs 0 - nth i xs 0 = (stop - start) / IZR count)).
Proof.
  split; [apply sweep_rejects|].
  intros Hc Hr.
  exists (map (sweep_point start stop count) (seq 0 (Z.to_nat count))).
  assert (Hlen : length (map (sweep_point start stop count)
                           (seq 0 (Z.to_nat count))) = Z.to_nat count)
    by now rewrite length_map, length_seq.
  split; [now apply sweep_accepts|].
  split; [rewrite Hlen; lia|].
  split.
  { rewrite sweep_nth by lia. unfold sweep_point. simpl. ring. }
  split.
  - intros x Hx. apply in_map_iff in Hx. destruct Hx as (i & <- & Hi).
    apply in_seq in Hi. apply sweep_point_in_range; lia || assumption.
  - intros i Hi. rewrite Hlen in Hi.
    rewrite !sweep_nth by lia.
    pose proof (sweep_point_next start stop count i) as Hgap.
    pose proof (sweep_step_pos start stop count Hc Hr) as Hpos.
    unfold sweep_step in *. split; lra.
Qed.

(** * Further properties of the notebook's expressions

    The statements below are on the expressions in the notebook's own
    symbols ([v], [c], [t0], [G], [M], [r]) rather than on the normalised
    inputs. *)

(** ** From the symbols to the normalised inputs *)

Lemma gamma_as_fraction (v c : R) :
  c <> 0 -> gamma v c = lorentz_factor c (v / c).
Proof.
  intros Hc. unfold lorentz_factor.
  replace (v / c * c) with v by (field; assumption).
  reflexivity.
Qed.

Lemma t_gravity_by_ratio (t0 G M r c : R) :
  0 < G -> 0 < M -> 0 < c -> 0 < r ->
  t_gravity t0 G M r c = t0 * gravitational_dilation G M c (r / r_s G M c).
Proof.
  intros HG HM Hc Hr.
  pose proof (r_s_pos G M c HG HM Hc) as Hrs.
  assert (Hq : 0 < r / r_s G M c) by now apply Rdiv_lt_0_compat.
  rewrite gravitational_dilation_closed_form by (assumption || lra).
  rewrite <- t_gravity_closed_form with (c := c) (G := G) (M := M)
    by (assumption || lra).
  replace (r / r_s G M c * r_s G M c) with r by (field; lra).
  reflexivity.
Qed.

Lemma ratio_above_one (a b : R) : 0 < b -> b < a -> 1 < a / b.
Proof.
  intros Hb Hab.
  apply Rmult_lt_reg_r with b; [assumption|].
  replace (a / b * b) with a by (field; lra). lra.
Qed.

Lemma ratio_increasing (a1 a2 b : R) : 0 < b -> a1 < a2 -> a1 / b < a2 / b.
Proof.
  intros Hb Ha. unfold Rdiv.
  apply Rmult_lt_compat_r; [now apply Rinv_0_lt_compat | assumption].
Qed.

(** X1: the cell [sp.limit(t_gravity, r, r_s)] takes the limit from the
    right of the Schwarzschild radius; there the expression is real, it
    tends to [0], the recorded output, and [0] is also its value at the
    radius itself. *)
Theorem limit_gravity_recorded
    (t0 G M c : R) (t0_pos : 0 < t0) (G_pos : 0 < G) (M_pos : 0 < M)
    (c_pos : 0 < c) :
  Sym.right_limit_real (fun r => Sym.t_gravity t0 G M r c) (r_s G M c) 0 /\
  tends_at_right (fun r => t_gravity t0 G M r c) (r_s G M c) 0 /\
  Sym.t_gravity t0 G M (r_s G M c) c = Sym.Finite 0 0.
Proof.
  split; [|split].
  - now apply sym_limit_gravity_is_zero.
  - now apply limit_gravity_is_zero.
  - pose proof (eval_gravitational_dilation_at_horizon G M c G_pos M_pos c_pos)
      as Hh.
    unfold eval_gravitational_dilation in Hh. injection Hh as Hh.
    rewrite Rmult_1_l in Hh. unfold Sym.t_gravity in *.
    destruct (Sym.sqrt_real (1 - 2 * G * M / (r_s G M c * c ^ 2)))
      as [a b|]; simpl in *; [|discriminate].
    injection Hh as Ha Hb.
    f_equal; nra.
Qed.

Lemma limit_gravity_recorded_witness :
  0 < 5 /\ 0 < 1 /\ 0 < 2 /\ 0 < 3 /\
  (Sym.right_limit_real (fun r => Sym.t_gravity 5 1 2 r 3) (r_s 1 2 3) 0 /\
   tends_at_right (fun r => t_gravity 5 1 2 r 3) (r_s 1 2 3) 0 /\
   Sym.t_gravity 5 1 2 (r_s 1 2 3) 3 = Sym.Finite 0 0).
Proof.
  repeat (split; [lra|]).
  apply (limit_gravity_recorded 5 1 2 3); lra.
Defined.

(** ** Gravitational dilation as a function of the radius *)

Section GravityByRadius.

Variables t0 G M c : R.
Hypothesis t0_pos : 0 < t0.
Hypothesis G_pos : 0 < G.
Hypothesis M_pos : 0 < M.
Hypothesis c_pos : 0 < c.

Lemma t_gravity_through_r_s (r : R) :
  0 < r -> t_gravity t0 G M r c = t0 * sqrt (1 - r_s G M c / r).
Proof.
  intros Hr. unfold t_gravity, r_s.
  do 2 f_equal. field. split; lra.
Qed.

Lemma t_gravity_between (r : R) :
  r_s G M c < r -> 0 < t_gravity t0 G M r c < t0.
Proof.
  intros Hr.
  pose proof (r_s_pos G M c G_pos M_pos c_pos) as Hrs.
  rewrite t_gravity_by_ratio by (assumption || lra).
  pose proof (ratio_above_one r (r_s G M c) Hrs Hr) as Hq.
  pose proof (gravitational_dilation_pos G M c G_pos M_pos c_pos _ Hq) as H0.
  pose proof (gravitational_dilation_lt_1 G M c G_pos M_pos c_pos _ Hq) as H1.
  split; nra.
Qed.

Lemma t_gravity_increasing (r1 r2 : R) :
  r_s G M c < r1 -> r1 < r2 ->
  t_gravity t0 G M r1 c < t_gravity t0 G M r2 c.
Proof.
  intros Hr1 Hr12.
  pose proof (r_s_pos G M c G_pos M_pos c_pos) as Hrs.
  rewrite !t_gravity_by_ratio by (assumption || lra).
  apply Rmult_lt_compat_l; [assumption|].
  apply gravitational_dilation_increasing; try assumption.
  - now apply ratio_above_one.
  - now apply ratio_increasing.
Qed.

Lemma t_gravity_far : tends_at_infinity (fun r => t_gravity t0 G M r c) t0.
Proof.
  intros eps Heps.
  pose proof (r_s_pos G M c G_pos M_pos c_pos) as Hrs.
  assert (Het : 0 < eps / t0) by now apply Rdiv_lt_0_compat.
  destruct (gravitational_dilation_far G M c G_pos M_pos c_pos (eps / t0) Het)
    as (N & HN).
  exists (Rmax 0 (N * r_s G M c)).
  intros r Hr.
  assert (Hr0 : 0 < r) by (eapply Rle_lt_trans; [apply Rmax_l | exact Hr]).
  assert (HrN : N * r_s G M c < r)
    by (eapply Rle_lt_trans; [apply Rmax_r | exact Hr]).
  assert (Hq : N < r / r_s G M c).
  { apply Rmult_lt_reg_r with (r_s G M c); [assumption|].
    replace (r / r_s G M c * r_s G M c) with r by (field; lra).
    assumption. }
  specialize (HN _ Hq).
  rewrite t_gravity_by_ratio by assumption.
  replace (t0 * gravitational_dilation G M c (r / r_s G M c) - t0)
    with (t0 * (gravitational_dilation G M c (r / r_s G M c) - 1)) by ring.
  rewrite Rabs_mult, (Rabs_pos_eq t0) by lra.
  apply Rlt_le_trans with (t0 * (eps / t0)).
  - now apply Rmult_lt_compat_l.
  - right. field. lra.
Qed.

End GravityByRadius.

(** X2: outside the Schwarzschild radius [t_gravity] is [t0 * sqrt(1 -
    r_s / r)]: it depends on [G], [M] and [c] through [r_s] only, lies
    strictly between [0] and the proper time [t0], grows strictly with the
    radius, and tends to [t0] far from the mass. *)
Theorem t_gravity_outside_horizon
    (t0 G M c : R) (t0_pos : 0 < t0) (G_pos : 0 < G) (M_pos : 0 < M)
    (c_pos : 0 < c) :
  (forall r, r_s G M c < r ->
     t_gravity t0 G M r c = t0 * sqrt (1 - r_s G M c / r) /\
     0 < t_gravity t0 G M r c < t0) /\
  (forall r1 r2, r_s G M c < r1 -> r1 < r2 ->
     t_gravity t0 G M r1 c < t_gravity t0 G M r2 c) /\
  tends_at_infinity (fun r => t_gravity t0 G M r c) t0.
Proof.
  pose proof (r_s_pos G M c G_pos M_pos c_pos) as Hrs.
  split; [|split].
  - intros r Hr. split.
    + apply t_gravity_through_r_s; lra.
    + now apply t_gravity_between.
  - intros r1 r2. now apply t_gravity_increasing.
  - now apply t_gravity_far.
Qed.

Lemma t_gravity_outside_horizon_witness :
  0 < 5 /\ 0 < 1 /\ 0 < 2 /\ 0 < 3 /\
  ((forall r, r_s 1 2 3 < r ->
      t_gravity 5 1 2 r 3 = 5 * sqrt (1 - r_s 1 2 3 / r) /\
      0 < t_gravity 5 1 2 r 3 < 5) /\
   (forall r1 r2, r_s 1 2 3 < r1 -> r1 < r2 ->
      t_gravity 5 1 2 r1 3 < t_gravity 5 1 2 r2 3) /\
   tends_at_infinity (fun r => t_gravity 5 1 2 r 3) 5).
Proof.
  repeat (split; [lra|]).
  apply (t_gravity_outside_horizon 5 1 2 3); lra.
Defined.

(** ** The Lorentz factor in the symbols [v] and [c] *)

(** X3: [gamma] depends on [v] and [c] through the ratio [v / c] only: the
    notebook's [1 / sqrt(1 - v**2 / c**2)] is the report's
    [1 / sqrt(1 - (v/c)^2)], and rescaling both speeds by one factor (a
    change of units) leaves it unchanged. *)
Theorem gamma_depends_on_ratio (k v c : R) (k_nz : k <> 0) (c_nz : c <> 0) :
  gamma v c = 1 / sqrt (1 - (v / c) ^ 2) /\
  gamma (k * v) (k * c) = gamma v c.
Proof.
  unfold gamma. split.
  - do 2 f_equal. f_equal. field. assumption.
  - do 2 f_equal. f_equal. field. split; assumption.
Qed.

Lemma gamma_depends_on_ratio_witness :
  1000 <> 0 /\ 3 <> 0 /\
  (gamma 2 3 = 1 / sqrt (1 - (2 / 3) ^ 2) /\
   gamma (1000 * 2) (1000 * 3) = gamma 2 3).
Proof.
  repeat (split; [lra|]).
  apply (gamma_depends_on_ratio 1000 2 3); lra.
Defined.

(** ** Dilated time in the symbols [v], [c] and [t0] *)

Section DilatedTime.

Variables c t0 : R.
Hypothesis c_pos : 0 < c.

Lemma fraction_of_speed (v : R) : 0 <= v < c -> 0 <= v / c < 1.
Proof.
  intros [H0 H1]. split.
  - apply Rmult_le_reg_r with c; [assumption|].
    replace (v / c * c) with v by (field; lra). lra.
  - apply Rmult_lt_reg_r with c; [assumption|].
    replace (v / c * c) with v by (field; lra). lra.
Qed.

Lemma proper_time_recovered (v : R) :
  0 <= v < c -> t v c t0 * sqrt (1 - v ^ 2 / c ^ 2) = t0.
Proof.
  intros Hv. unfold t, gamma.
  pose proof (velocity_ratio_below c c_pos v Hv) as Hpos.
  field. apply Rgt_not_eq. now apply sqrt_lt_R0.
Qed.

Lemma interval_invariant (v : R) :
  0 <= v < c ->
  (c * t v c t0) ^ 2 - (v * t v c t0) ^ 2 = (c * t0) ^ 2.
Proof.
  intros Hv.
  pose proof (velocity_ratio_below c c_pos v Hv) as Hpos.
  pose proof (proper_time_recovered v Hv) as Hrec.
  assert (Hss : sqrt (1 - v ^ 2 / c ^ 2) * sqrt (1 - v ^ 2 / c ^ 2)
                = 1 - v ^ 2 / c ^ 2) by (apply sqrt_sqrt; lra).
  assert (Hcv : c ^ 2 - v ^ 2 = c ^ 2 * (1 - v ^ 2 / c ^ 2)) by (field; lra).
  set (T := t v c t0) in *.
  set (s := sqrt (1 - v ^ 2 / c ^ 2)) in *.
  replace ((c * T) ^ 2 - (v * T) ^ 2) with (T ^ 2 * (c ^ 2 - v ^ 2)) by ring.
  rewrite Hcv, <- Hss, <- Hrec. ring.
Qed.

Hypothesis t0_pos : 0 < t0.

Lemma t_at_rest : t 0 c t0 = t0.
Proof.
  unfold t. rewrite gamma_as_fraction by lra.
  replace (0 / c) with 0 by (field; lra).
  rewrite lorentz_factor_at_rest by assumption. ring.
Qed.

Lemma t_increasing (v1 v2 : R) :
  0 <= v1 -> v1 < v2 -> v2 < c -> t v1 c t0 < t v2 c t0.
Proof.
  intros H1 H12 H2. unfold t.
  rewrite !gamma_as_fraction by lra.
  apply Rmult_lt_compat_r; [assumption|].
  destruct (fraction_of_speed v1) as [Ha _]; [lra|].
  destruct (fraction_of_speed v2) as [_ Hb]; [lra|].
  apply lorentz_factor_increasing; try assumption.
  now apply ratio_increasing.
Qed.

Lemma t_diverges : diverges_at_left (fun v => t v c t0) c.
Proof.
  intros B.
  destruct (lorentz_factor_diverges c c_pos (B / t0)) as (d & Hd & Hnear).
  exists (d * c). split; [now apply Rmult_lt_0_compat|].
  intros v [Hlo Hhi]. unfold t.
  rewrite gamma_as_fraction by lra.
  assert (Hq : 1 - d < v / c < 1).
  { split; apply Rmult_lt_reg_r with c; try assumption;
      replace (v / c * c) with v by (field; lra); lra. }
  specialize (Hnear _ Hq).
  apply Rmult_lt_compat_r with (r := t0) in Hnear; [|assumption].
  replace (B / t0 * t0) with B in Hnear by (field; lra).
  exact Hnear.
Qed.

End DilatedTime.

(** X4: the dilated time [t = gamma * t0] keeps the spacetime interval:
    below light speed [(c t)^2 - (v t)^2 = (c t0)^2], and multiplying [t] by
    [sqrt(1 - v^2/c^2)] gives the proper time back. *)
Theorem dilated_time_keeps_interval
    (c t0 v : R) (c_pos : 0 < c) (v_valid : 0 <= v < c) :
  (c * t v c t0) ^ 2 - (v * t v c t0) ^ 2 = (c * t0) ^ 2 /\
  t v c t0 * sqrt (1 - v ^ 2 / c ^ 2) = t0.
Proof.
  split.
  - now apply interval_invariant.
  - now apply proper_time_recovered.
Qed.

Lemma dilated_time_keeps_interval_witness :
  0 < 5 /\ 0 <= 3 < 5 /\
  ((5 * t 3 5 2) ^ 2 - (3 * t 3 5 2) ^ 2 = (5 * 2) ^ 2 /\
   t 3 5 2 * sqrt (1 - 3 ^ 2 / 5 ^ 2) = 2).
Proof.
  repeat (split; [lra|]).
  apply (dilated_time_keeps_interval 5 2 3); lra.
Defined.

(** X5: for a positive proper time the dilated time [t = gamma * t0] is the
    proper time at rest, grows strictly with the speed below light speed, so
    a moving clock always shows strictly more than [t0], and exceeds every
    bound as the speed approaches [c] from below. *)
Theorem dilated_time_grows_with_speed
    (c t0 : R) (c_pos : 0 < c) (t0_pos : 0 < t0) :
  t 0 c t0 = t0 /\
  (forall v1 v2, 0 <= v1 -> v1 < v2 -> v2 < c -> t v1 c t0 < t v2 c t0) /\
  (forall v, 0 < v < c -> t0 < t v c t0) /\
  diverges_at_left (fun v => t v c t0) c.
Proof.
  split; [|split; [|split]].
  - now apply t_at_rest.
  - intros v1 v2. now apply t_increasing.
  - intros v [H0 H1].
    rewrite <- (t_at_rest c t0 c_pos) at 1.
    apply t_increasing; lra.
  - now apply t_diverges.
Qed.

Lemma dilated_time_grows_with_speed_witness :
  0 < 5 /\ 0 < 2 /\
  (t 0 5 2 = 2 /\
   (forall v1 v2, 0 <= v1 -> v1 < v2 -> v2 < 5 -> t v1 5 2 < t v2 5 2) /\
   (forall v, 0 < v < 5 -> 2 < t v 5 2) /\
   diverges_at_left (fun v => t v 5 2) 5).
Proof.
  repeat (split; [lra|]).
  apply (dilated_time_grows_with_speed 5 2); lra.
Defined.
